(** * COBOT config tester: the Svelte front end as event-driven state machines

    The front end is two components.  [JointControl.svelte] holds the
    commanded angle and speed of one joint and sends [move_joint] and
    [stop_joint] to the Tauri backend; [App.svelte] owns the connection
    flags, the [angles] array and the polling timer.  Two earlier drafts of
    [App.svelte] are modelled next to it ([AppRetry], [AppPoll]).

    Every [invoke] returns a promise: the call is recorded in the trace and
    its continuation is parked in a list of outstanding requests; a later
    [Settle] event runs the [then] or the [catch] callback.  JavaScript
    numbers are finite doubles here (a number input yields a number or
    [null]), so they are rationals and [number | null] is [option Q]. *)

From Stdlib Require Import QArith Lqa ZArith Bool.
From stdpp Require Import base list strings.

Local Open Scope Q_scope.

(** ** JavaScript values, backend commands and observable effects *)

(** [number | null]; [None] also stands for [undefined] and for a hole. *)
Definition elem : Type := option Q.

Inductive Value :=
| VUndefined
| VBool (b : bool)
| VNumber (q : Q)
| VString (s : string)
| VArray (l : list elem).

(** [v ? true : false] *)
Definition truthy (v : Value) : bool :=
  match v with
  | VUndefined => false
  | VBool b => b
  | VNumber q => negb (Qeq_bool q 0)
  | VString s => negb (bool_decide (s = EmptyString))
  | VArray _ => true
  end.

(** [Array.isArray(v)], with the array when it is one. *)
Definition as_array (v : Value) : option (list elem) :=
  match v with
  | VArray l => Some l
  | _ => None
  end.

(** How a promise settles. *)
Inductive Response :=
| Resolve (v : Value)
| Reject (e : string).

(** The Tauri commands the front end invokes, with their arguments. *)
Inductive Command :=
| is_connected
| connect (portName : string) (baudRate : option Q)
| init
| disconnect
| get_angles
| get_position
| calibrate (joints : Z)
| move_joint (joint : nat) (angle speed : Q)
| stop_joint (joint : nat).

Inductive Message :=
| MsgMoving (joint : nat) (angle : Q)
| MsgStopping (joint : nat)
| MsgStopped (joint : nat)
| MsgInitializing
| MsgInitialized
| MsgConnected.

Inductive Effect :=
| Invoke (c : Command)
| ConsoleLog (m : Message)
| ConsoleError (e : string)
| Alert (e : string)
| SetInterval (ms : Z)
| SetTimeout (ms : Z).

(** ** Arrays

    [a[i] = v] on a JavaScript array: in range it overwrites, out of range
    the array grows (the gap, if any, is holes). *)
Definition array_set (a : list elem) (i : nat) (v : elem) : list elem :=
  if decide (i < length a)%nat
  then <[i := v]> a
  else a ++ replicate (i - length a) None ++ [v].

(** The two arrays a polling callback can name: the component's [angles]
    and the array the promise resolved with. *)
Inductive Ref := OuterAngles | Fetched.

Record Store := { outer : list elem; fetched : list elem }.

Definition read (st : Store) (r : Ref) : list elem :=
  match r with
  | OuterAngles => outer st
  | Fetched => fetched st
  end.

Definition write (st : Store) (r : Ref) (a : list elem) : Store :=
  match r with
  | OuterAngles => {| outer := a; fetched := fetched st |}
  | Fetched => {| outer := outer st; fetched := a |}
  end.

(** [src.forEach((angle, i) => { dst[i] = angle; })]: [n] indices are left,
    [i] is the next one; each element is read from the live [src]. *)
Fixpoint forEach_assign (src dst : Ref) (n i : nat) (st : Store) : Store :=
  match n with
  | O => st
  | S n' =>
      let st' :=
        match read st src !! i with
        | Some v => write st dst (array_set (read st dst) i v)
        | None => st
        end in
      forEach_assign src dst n' (S i) st'
  end.

Definition forEach_write (src dst : Ref) (st : Store) : Store :=
  forEach_assign src dst (length (read st src)) 0 st.

(** ** JointControl.svelte *)

Module JointControl.

Record Component := {
  id : nat;
  name : string;
  angle : elem;
  minAngle : Q;
  maxAngle : Q;
  minSpeed : Q;
  maxSpeed : Q;
  targetSpeed : Q;
  targetAngle : Q;
  angleInput : elem;
  speedInput : elem
}.

(** A request to the backend whose promise has not settled, with the
    values its [then] callback closes over. *)
Inductive Pending :=
| PMove (angle speed : Q)
| PStop.

Record State := {
  comp : Component;
  inflight : list Pending;
  trace : list Effect
}.

(** Component creation; [App.svelte] passes [id], [name] and [angle] and
    leaves the bounds to their defaults. *)
Definition mount (id : nat) (name : string) (angle : elem)
    (minAngle maxAngle minSpeed maxSpeed : Q) : State :=
  {| comp := {| id := id; name := name; angle := angle;
                minAngle := minAngle; maxAngle := maxAngle;
                minSpeed := minSpeed; maxSpeed := maxSpeed;
                targetSpeed := 0; targetAngle := 0;
                angleInput := angle; speedInput := Some 0 |};
     inflight := [];
     trace := [] |}.

Definition mount_default (id : nat) (name : string) (angle : elem) : State :=
  mount id name angle (-180) 180 0 180.

(** The first and the third JointControl of [App.svelte], as mounted
    while [angles] still holds its initial zeros. *)
Definition base : State := mount_default 0 "base" (Some 0).
Definition elbow : State := mount_default 2 "elbow" (Some 0).

(** [$: angleInputValid], [$: speedInputValid], [$: moving] *)
Definition angleInputValid (c : Component) : bool :=
  match angleInput c with
  | Some a => Qle_bool (minAngle c) a && Qle_bool a (maxAngle c)
  | None => false
  end.

Definition speedInputValid (c : Component) : bool :=
  match speedInput c with
  | Some v => Qle_bool (minSpeed c) v && Qle_bool v (maxSpeed c)
  | None => false
  end.

Definition moving (c : Component) : bool :=
  match angle c with
  | Some a => negb (Qeq_bool (targetAngle c) a)
  | None => true
  end.

Definition set_targets (a v : Q) (c : Component) : Component :=
  {| id := id c; name := name c; angle := angle c;
     minAngle := minAngle c; maxAngle := maxAngle c;
     minSpeed := minSpeed c; maxSpeed := maxSpeed c;
     targetSpeed := v; targetAngle := a;
     angleInput := angleInput c; speedInput := speedInput c |}.

Definition set_angleInput (x : elem) (c : Component) : Component :=
  {| id := id c; name := name c; angle := angle c;
     minAngle := minAngle c; maxAngle := maxAngle c;
     minSpeed := minSpeed c; maxSpeed := maxSpeed c;
     targetSpeed := targetSpeed c; targetAngle := targetAngle c;
     angleInput := x; speedInput := speedInput c |}.

Definition set_speedInput (x : elem) (c : Component) : Component :=
  {| id := id c; name := name c; angle := angle c;
     minAngle := minAngle c; maxAngle := maxAngle c;
     minSpeed := minSpeed c; maxSpeed := maxSpeed c;
     targetSpeed := targetSpeed c; targetAngle := targetAngle c;
     angleInput := angleInput c; speedInput := x |}.

Definition set_angle (x : elem) (c : Component) : Component :=
  {| id := id c; name := name c; angle := x;
     minAngle := minAngle c; maxAngle := maxAngle c;
     minSpeed := minSpeed c; maxSpeed := maxSpeed c;
     targetSpeed := targetSpeed c; targetAngle := targetAngle c;
     angleInput := angleInput c; speedInput := speedInput c |}.

Definition with_comp (f : Component -> Component) (s : State) : State :=
  {| comp := f (comp s); inflight := inflight s; trace := trace s |}.

Definition emit (es : list Effect) (s : State) : State :=
  {| comp := comp s; inflight := inflight s; trace := trace s ++ es |}.

Definition park (p : Pending) (s : State) : State :=
  {| comp := comp s; inflight := inflight s ++ [p]; trace := trace s |}.

(** [async function moveTo(angle, speed)] up to the point where [invoke]
    has returned its promise. *)
Definition moveTo (angle speed : elem) (s : State) : State :=
  match angle, speed with
  | Some a, Some v =>
      park (PMove a v)
        (emit [ConsoleLog (MsgMoving (id (comp s)) a);
               Invoke (move_joint (id (comp s)) a v)] s)
  | _, _ => s
  end.

(** [async function stop()] up to the point where [invoke] has returned. *)
Definition stop (s : State) : State :=
  park PStop
    (emit [ConsoleLog (MsgStopping (id (comp s)));
           Invoke (stop_joint (id (comp s)))] s).

(** The [then] and [catch] callbacks of the two requests. *)
Definition settled (p : Pending) (r : Response) (s : State) : State :=
  match p, r with
  | PMove a v, Resolve _ => with_comp (set_targets a v) s
  | PMove _ _, Reject e => emit [ConsoleError e] s
  | PStop, Resolve _ =>
      with_comp (set_targets 0 0) (emit [ConsoleLog (MsgStopped (id (comp s)))] s)
  | PStop, Reject e => emit [ConsoleError e] s
  end.

Inductive Event :=
| InputAngle (x : elem)      (* bind:value={angleInput} *)
| InputSpeed (x : elem)      (* bind:value={speedInput} *)
| PropAngle (x : elem)       (* the parent re-renders with a new angle *)
| SubmitForm                 (* on:submit of the form *)
| ClickSubmit                (* on:click of the Submit button *)
| ClickStop                  (* on:click of the STOP button *)
| Settle (k : nat) (r : Response).

Definition step (s : State) (ev : Event) : State :=
  match ev with
  | InputAngle x => with_comp (set_angleInput x) s
  | InputSpeed x => with_comp (set_speedInput x) s
  | PropAngle x => with_comp (set_angle x) s
  | SubmitForm =>
      if angleInputValid (comp s) && speedInputValid (comp s)
      then moveTo (angleInput (comp s)) (speedInput (comp s)) s
      else s
  | ClickSubmit =>
      (* disabled={!angleInputValid || !speedInputValid} *)
      if negb (angleInputValid (comp s)) || negb (speedInputValid (comp s))
      then s
      else moveTo (angleInput (comp s)) (speedInput (comp s)) s
  | ClickStop =>
      (* disabled={!moving} *)
      if negb (moving (comp s)) then s else stop s
  | Settle k r =>
      match inflight s !! k with
      | Some p =>
          settled p r
            {| comp := comp s; inflight := delete k (inflight s); trace := trace s |}
      | None => s
      end
  end.

Definition run (evs : list Event) (s : State) : State := foldl step s evs.

(** [a] lies within the inclusive angle bounds of [c]. *)
Definition angle_in_bounds (c : Component) (a : Q) : Prop :=
  minAngle c <= a /\ a <= maxAngle c.

Definition speed_in_bounds (c : Component) (v : Q) : Prop :=
  minSpeed c <= v /\ v <= maxSpeed c.

(** What the reachable states have in common: the commanded angle is the
    literal [0] or within the bounds, and so is every angle a parked
    [move_joint] will commit. *)
Definition pending_ok (mn mx : Q) (p : Pending) : Prop :=
  match p with
  | PMove a _ => mn <= a /\ a <= mx
  | PStop => True
  end.

Definition inv (mn mx : Q) (s : State) : Prop :=
  minAngle (comp s) = mn /\ maxAngle (comp s) = mx /\
  (targetAngle (comp s) = 0 \/
   (mn <= targetAngle (comp s) /\ targetAngle (comp s) <= mx)) /\
  Forall (pending_ok mn mx) (inflight s).

End JointControl.

(** ** The polling callbacks

    Both take the array component [angles] and the value the promise
    resolved with, and return the array the component holds afterwards. *)

(** [App.svelte]: the parameter is called [received], so [angles[i]] in the
    loop body is the component's array; [angles = [...angles]] then stores a
    copy with the same contents. *)
Definition get_angles_then (v : Value) (angles : list elem) : list elem :=
  match as_array v with
  | Some received =>
      outer (forEach_write Fetched OuterAngles
               {| outer := angles; fetched := received |})
  | None => angles
  end.

(** The earlier drafts: the parameter is itself called [angles], so inside
    the callback that name is the fetched array, both as the array iterated
    and as the array assigned to. *)
Definition get_position_then (v : Value) (angles : list elem) : list elem :=
  match as_array v with
  | Some received =>
      outer (forEach_write Fetched Fetched
               {| outer := angles; fetched := received |})
  | None => angles
  end.

(** [const JOINTS], the same table in all three versions of the component. *)
Definition JOINTS : list (string * nat) :=
  [("base"%string, 0%nat); ("shoulder"%string, 1%nat); ("elbow"%string, 2%nat);
   ("forearm roll"%string, 3%nat); ("wrist pitch"%string, 4%nat);
   ("wrist roll"%string, 5%nat)].

(** [Array(JOINTS.length).fill(0)] *)
Definition initial_angles : list elem := replicate (length JOINTS) (Some 0).

(** [angle={angles[joint.id]}]: what a JointControl is handed; an index
    past the end reads [undefined]. *)
Definition angle_prop (angles : list elem) (joint : nat) : elem :=
  match angles !! joint with
  | Some x => x
  | None => None
  end.

(** ** App.svelte *)

Module App.

Inductive Pending :=
| PIsConnected
| PConnect
| PInit
| PDisconnect
| PGetAngles
| PCalibrate.

Record State := {
  angles : list elem;
  connected : bool;
  initialized : bool;
  portName : string;
  baudRate : elem;
  pending : list Pending;
  intervals : nat;          (* timers created by setInterval; none is ever cleared *)
  trace : list Effect
}.

Definition emit (es : list Effect) (s : State) : State :=
  {| angles := angles s; connected := connected s; initialized := initialized s;
     portName := portName s; baudRate := baudRate s;
     pending := pending s; intervals := intervals s; trace := trace s ++ es |}.

Definition park (p : Pending) (s : State) : State :=
  {| angles := angles s; connected := connected s; initialized := initialized s;
     portName := portName s; baudRate := baudRate s;
     pending := pending s ++ [p]; intervals := intervals s; trace := trace s |}.

Definition set_connected (b : bool) (s : State) : State :=
  {| angles := angles s; connected := b; initialized := initialized s;
     portName := portName s; baudRate := baudRate s;
     pending := pending s; intervals := intervals s; trace := trace s |}.

Definition set_initialized (b : bool) (s : State) : State :=
  {| angles := angles s; connected := connected s; initialized := b;
     portName := portName s; baudRate := baudRate s;
     pending := pending s; intervals := intervals s; trace := trace s |}.

Definition set_angles (a : list elem) (s : State) : State :=
  {| angles := a; connected := connected s; initialized := initialized s;
     portName := portName s; baudRate := baudRate s;
     pending := pending s; intervals := intervals s; trace := trace s |}.

Definition set_portName (x : string) (s : State) : State :=
  {| angles := angles s; connected := connected s; initialized := initialized s;
     portName := x; baudRate := baudRate s;
     pending := pending s; intervals := intervals s; trace := trace s |}.

Definition set_baudRate (x : elem) (s : State) : State :=
  {| angles := angles s; connected := connected s; initialized := initialized s;
     portName := portName s; baudRate := x;
     pending := pending s; intervals := intervals s; trace := trace s |}.

Definition set_pending (l : list Pending) (s : State) : State :=
  {| angles := angles s; connected := connected s; initialized := initialized s;
     portName := portName s; baudRate := baudRate s;
     pending := l; intervals := intervals s; trace := trace s |}.

(** [setInterval(callback, ms)] *)
Definition setInterval (ms : Z) (s : State) : State :=
  {| angles := angles s; connected := connected s; initialized := initialized s;
     portName := portName s; baudRate := baudRate s;
     pending := pending s; intervals := S (intervals s);
     trace := trace s ++ [SetInterval ms] |}.

(** [function init()] up to the point where [invoke] has returned. *)
Definition init_ (s : State) : State :=
  park PInit (emit [ConsoleLog MsgInitializing; Invoke init] s).

(** The script's top level: the flags, then [invoke("is_connected")]. *)
Definition initial : State :=
  park PIsConnected
    (emit [Invoke is_connected]
       {| angles := initial_angles; connected := false; initialized := false;
          portName := "/dev/ttyCobot0"; baudRate := Some 115200;
          pending := []; intervals := 0; trace := [] |}).

(** The interval callback: one [invoke("get_angles")], whatever is
    outstanding. *)
Definition tick (s : State) : State :=
  park PGetAngles (emit [Invoke get_angles] s).

(** The [then] and [catch] callbacks, by request. *)
Definition settled (p : Pending) (r : Response) (s : State) : State :=
  match p, r with
  | PIsConnected, Resolve v =>
      let s1 := set_connected (truthy v) s in
      if connected s1 then init_ s1 else s1
  | PIsConnected, Reject _ => s
  | PConnect, Resolve _ =>
      init_ (set_connected true (emit [ConsoleLog MsgConnected] s))
  | PConnect, Reject e => emit [Alert e] s
  | PInit, Resolve _ =>
      setInterval 100
        (set_initialized true (emit [ConsoleLog MsgInitialized] s))
  | PInit, Reject e =>
      park PDisconnect (emit [Alert e; Invoke disconnect] s)
  | PDisconnect, Resolve _ => set_connected false s
  | PDisconnect, Reject _ => s
  | PGetAngles, Resolve v => set_angles (get_angles_then v (angles s)) s
  | PGetAngles, Reject e => emit [ConsoleError e] s
  | PCalibrate, _ => s
  end.

Inductive Event :=
| InputPortName (x : string)
| InputBaudRate (x : elem)
| ClickConnect
| ClickCalibrate
| Tick
| Settle (k : nat) (r : Response).

Definition step (s : State) (ev : Event) : State :=
  match ev with
  | InputPortName x => if connected s then s else set_portName x s
  | InputBaudRate x => if connected s then s else set_baudRate x s
  | ClickConnect =>
      (* the button is rendered in the {:else} branch of {#if connected} *)
      if connected s then s
      else park PConnect (emit [Invoke (connect (portName s) (baudRate s))] s)
  | ClickCalibrate =>
      (* rendered under {#if connected} {#if initialized} *)
      if connected s && initialized s
      then park PCalibrate (emit [Invoke (calibrate 63%Z)] s)   (* joints: 0b111111 *)
      else s
  | Tick =>
      match intervals s with
      | O => s
      | S _ => tick s
      end
  | Settle k r =>
      match pending s !! k with
      | Some p => settled p r (set_pending (delete k (pending s)) s)
      | None => s
      end
  end.

Definition run (evs : list Event) (s : State) : State := foldl step s evs.

Definition is_fetch (p : Pending) : bool :=
  match p with
  | PGetAngles => true
  | _ => false
  end.

(** Fetches whose promise has not settled. *)
Definition fetches_in_flight (s : State) : nat :=
  length (List.filter is_fetch (pending s)).

(** What one event adds to the trace. *)
Definition effects_of (s : State) (ev : Event) : list Effect :=
  drop (length (trace s)) (trace (step s ev)).

(** The user connects and the backend acknowledges [connect] and [init]:
    the flags are set and one polling timer runs. *)
Definition ready : State :=
  run [Settle 0 (Resolve (VBool false)); ClickConnect;
       Settle 0 (Resolve VUndefined); Settle 0 (Resolve VUndefined)] initial.

(** The user clicks Connect twice before the first acknowledgement, so
    [init] runs twice; the first is acknowledged, the second rejected,
    and the disconnect that follows is acknowledged. *)
Definition disconnected_while_polling : State :=
  run [Settle 0 (Resolve (VBool false)); ClickConnect; ClickConnect;
       Settle 0 (Resolve VUndefined); Settle 0 (Resolve VUndefined);
       Settle 0 (Resolve VUndefined); Settle 0 (Reject "already initialized");
       Settle 0 (Resolve VUndefined)] initial.

End App.

(** ** The first earlier draft of App.svelte: connect, init, retry *)

Module AppRetry.

Inductive Pending :=
| PConnect
| PInit
| PGetPosition.

Record State := {
  angles : list elem;
  initialized : bool;
  pending : list Pending;
  intervals : nat;          (* timers created by setInterval *)
  timeouts : nat;           (* setTimeout(init, 1000) callbacks not yet run *)
  trace : list Effect
}.

Definition emit (es : list Effect) (s : State) : State :=
  {| angles := angles s; initialized := initialized s; pending := pending s;
     intervals := intervals s; timeouts := timeouts s; trace := trace s ++ es |}.

Definition park (p : Pending) (s : State) : State :=
  {| angles := angles s; initialized := initialized s; pending := pending s ++ [p];
     intervals := intervals s; timeouts := timeouts s; trace := trace s |}.

Definition set_initialized (b : bool) (s : State) : State :=
  {| angles := angles s; initialized := b; pending := pending s;
     intervals := intervals s; timeouts := timeouts s; trace := trace s |}.

Definition set_angles (a : list elem) (s : State) : State :=
  {| angles := a; initialized := initialized s; pending := pending s;
     intervals := intervals s; timeouts := timeouts s; trace := trace s |}.

Definition set_pending (l : list Pending) (s : State) : State :=
  {| angles := angles s; initialized := initialized s; pending := l;
     intervals := intervals s; timeouts := timeouts s; trace := trace s |}.

Definition set_timeouts (n : nat) (s : State) : State :=
  {| angles := angles s; initialized := initialized s; pending := pending s;
     intervals := intervals s; timeouts := n; trace := trace s |}.

Definition setInterval (ms : Z) (s : State) : State :=
  {| angles := angles s; initialized := initialized s; pending := pending s;
     intervals := S (intervals s); timeouts := timeouts s;
     trace := trace s ++ [SetInterval ms] |}.

(** [setTimeout(init, ms)] *)
Definition setTimeout (ms : Z) (s : State) : State :=
  {| angles := angles s; initialized := initialized s; pending := pending s;
     intervals := intervals s; timeouts := S (timeouts s);
     trace := trace s ++ [SetTimeout ms] |}.

(** [async function init()] up to its first [await]. *)
Definition init_ (s : State) : State :=
  park PConnect (emit [Invoke (connect "/dev/ttyCobot0" (Some 115200))] s).

(** [init()] resumed after the first [await], whichever way the connect
    promise settled. *)
Definition init_resumed (s : State) : State :=
  park PInit (emit [Invoke init] s).

Definition initial : State :=
  init_ {| angles := initial_angles; initialized := false; pending := [];
           intervals := 0; timeouts := 0; trace := [] |}.

Definition tick (s : State) : State :=
  park PGetPosition (emit [Invoke get_position] s).

Definition settled (p : Pending) (r : Response) (s : State) : State :=
  match p, r with
  | PConnect, Resolve _ => init_resumed (emit [ConsoleLog MsgConnected] s)
  | PConnect, Reject e => init_resumed (emit [ConsoleError e] s)
  | PInit, Resolve _ =>
      setInterval 1000
        (set_initialized true (emit [ConsoleLog MsgInitialized] s))
  | PInit, Reject e => setTimeout 1000 (emit [ConsoleError e] s)
  | PGetPosition, Resolve v => set_angles (get_position_then v (angles s)) s
  | PGetPosition, Reject e => emit [ConsoleError e] s
  end.

Inductive Event :=
| Tick
| Timeout
| Settle (k : nat) (r : Response).

Definition step (s : State) (ev : Event) : State :=
  match ev with
  | Tick =>
      match intervals s with
      | O => s
      | S _ => tick s
      end
  | Timeout =>
      match timeouts s with
      | O => s
      | S n => init_ (set_timeouts n s)
      end
  | Settle k r =>
      match pending s !! k with
      | Some p => settled p r (set_pending (delete k (pending s)) s)
      | None => s
      end
  end.

Definition run (evs : list Event) (s : State) : State := foldl step s evs.

End AppRetry.

(** ** The second earlier draft of App.svelte: polling only *)

Module AppPoll.

Inductive Pending :=
| PGetPosition.

Record State := {
  angles : list elem;
  pending : list Pending;
  trace : list Effect
}.

(** The script's top level: the array, then [setInterval(callback, 20)]. *)
Definition initial : State :=
  {| angles := initial_angles; pending := []; trace := [SetInterval 20] |}.

Definition tick (s : State) : State :=
  {| angles := angles s; pending := pending s ++ [PGetPosition];
     trace := trace s ++ [Invoke get_position] |}.

Definition settled (p : Pending) (r : Response) (s : State) : State :=
  match p, r with
  | PGetPosition, Resolve v =>
      {| angles := get_position_then v (angles s); pending := pending s;
         trace := trace s |}
  | PGetPosition, Reject e =>
      {| angles := angles s; pending := pending s;
         trace := trace s ++ [ConsoleError e] |}
  end.

Inductive Event :=
| Tick
| Settle (k : nat) (r : Response).

Definition step (s : State) (ev : Event) : State :=
  match ev with
  | Tick => tick s
  | Settle k r =>
      match pending s !! k with
      | Some p =>
          settled p r
            {| angles := angles s; pending := delete k (pending s);
               trace := trace s |}
      | None => s
      end
  end.

Definition run (evs : list Event) (s : State) : State := foldl step s evs.

End AppPoll.

(** ** The dispatcher's calibrate *)

Module Dispatcher.

Definition JOINT_COUNT : Z := 6.

Inductive CommandError :=
| NoJointSelected
| JointOutOfRange.

Definition request (joints : Z) : Command := calibrate joints.

(** Modelled from the spec: [calibrate(joint_mask)] with its check of the
    mask is not part of the front end, which only invokes the backend
    command with the constant mask [0b111111].  Per the spec, bit [i] of
    the mask selects joint [i]; the call fails, sending nothing, when no
    joint is selected or when a bit at or above the joint count is set;
    otherwise it submits one request carrying the whole mask. *)
Definition calibrate (joint_mask : Z) : (unit + CommandError) * list Command :=
  if (joint_mask =? 0)%Z then (inr NoJointSelected, [])
  else if (Z.shiftr joint_mask JOINT_COUNT =? 0)%Z
       then (inl tt, [request joint_mask])
       else (inr JointOutOfRange, []).

(** The joints a mask selects. *)
Definition selects (joint_mask : Z) (i : Z) : bool := Z.testbit joint_mask i.

End Dispatcher.

(** ** What the caller of moveTo gets back *)

(** The promise [moveTo] hands its caller.  The function is [async]; its
    body either returns at once on a [null] argument or calls [invoke],
    attaches the two callbacks to that promise and falls off the end.  The
    [invoke] chain is neither awaited nor returned, so in both branches the
    promise fulfils with [undefined], and [backend], the way the
    [move_joint] request settles later, has no part in it. *)
Definition moveTo_returns (angle speed : elem) (backend : Response) : Response :=
  match angle, speed with
  | Some _, Some _ => Resolve VUndefined
  | _, _ => Resolve VUndefined
  end.

(** Two Connect clicks have both been acknowledged and so has the first
    [init]; the second [init] is still outstanding. *)
Definition second_init_outstanding : App.State :=
  App.run [App.Settle 0 (Resolve (VBool false)); App.ClickConnect; App.ClickConnect;
           App.Settle 0 (Resolve VUndefined); App.Settle 0 (Resolve VUndefined);
           App.Settle 0 (Resolve VUndefined)] App.initial.

(** ** Predicates on the states a component can reach *)

(** The props a JointControl is given at creation and never assigns. *)
Definition same_props (c c' : JointControl.Component) : Prop :=
  JointControl.id c' = JointControl.id c /\
  JointControl.name c' = JointControl.name c /\
  JointControl.minAngle c' = JointControl.minAngle c /\
  JointControl.maxAngle c' = JointControl.maxAngle c /\
  JointControl.minSpeed c' = JointControl.minSpeed c /\
  JointControl.maxSpeed c' = JointControl.maxSpeed c.

(** The commanded pair is the pair written at creation and by an
    acknowledged stop, or a pair that passed both bounds checks. *)
Definition commanded_ok (c c' : JointControl.Component) : Prop :=
  (JointControl.targetAngle c' = 0 /\ JointControl.targetSpeed c' = 0) \/
  (JointControl.angle_in_bounds c (JointControl.targetAngle c') /\
   JointControl.speed_in_bounds c (JointControl.targetSpeed c')).

Definition request_in_bounds (c : JointControl.Component)
    (p : JointControl.Pending) : Prop :=
  match p with
  | JointControl.PMove a v =>
      JointControl.angle_in_bounds c a /\ JointControl.speed_in_bounds c v
  | JointControl.PStop => True
  end.

(** What a JointControl may add to the trace: console output, and
    [move_joint] and [stop_joint] for its own joint, the former with an
    angle and a speed inside the bounds. *)
Definition effect_of_joint (c : JointControl.Component) (e : Effect) : Prop :=
  match e with
  | Invoke (move_joint j a v) =>
      j = JointControl.id c /\
      JointControl.angle_in_bounds c a /\ JointControl.speed_in_bounds c v
  | Invoke (stop_joint j) => j = JointControl.id c
  | Invoke _ => False
  | ConsoleLog _ => True
  | ConsoleError _ => True
  | Alert _ => False
  | SetInterval _ => False
  | SetTimeout _ => False
  end.

Definition joint_inv (c : JointControl.Component) (s : JointControl.State) : Prop :=
  same_props c (JointControl.comp s) /\
  commanded_ok c (JointControl.comp s) /\
  Forall (request_in_bounds c) (JointControl.inflight s) /\
  Forall (effect_of_joint c) (JointControl.trace s).

(** In the retrying draft: the requests and the timeout that belong to an
    attempt at [init()]. *)
Definition is_attempt (p : AppRetry.Pending) : bool :=
  match p with
  | AppRetry.PConnect => true
  | AppRetry.PInit => true
  | AppRetry.PGetPosition => false
  end.

Definition attempts_running (s : AppRetry.State) : nat :=
  (length (List.filter is_attempt (AppRetry.pending s)) + AppRetry.timeouts s)%nat.

(** Either an attempt is under way and nothing polls, or the component is
    initialized, one timer polls and no attempt is left. *)
Definition attempt_inv (s : AppRetry.State) : Prop :=
  (AppRetry.initialized s = false /\ AppRetry.intervals s = 0%nat /\
   attempts_running s = 1%nat) \/
  (AppRetry.initialized s = true /\ AppRetry.intervals s = 1%nat /\
   attempts_running s = 0%nat).

(** One failed attempt, start to restart: the connect promise settles
    with [rc], the init promise is rejected with [e], the timeout fires. *)
Definition failed_attempt (a : Response * string) : list AppRetry.Event :=
  [AppRetry.Settle 0 a.1; AppRetry.Settle 0 (Reject a.2); AppRetry.Timeout].

Definition is_connect (e : Effect) : bool :=
  match e with
  | Invoke (connect _ _) => true
  | _ => false
  end.

Definition connects_invoked (t : list Effect) : nat :=
  length (List.filter is_connect t).

(** * Properties *)

(** ** Arrays and the two loops *)

Lemma array_set_in_range (a : list elem) (i : nat) (v : elem) :
  (i < length a)%nat -> array_set a i v = <[i := v]> a.
Proof. intros Hi. unfold array_set. by rewrite decide_True. Qed.

Lemma array_set_at_end (a : list elem) (v : elem) :
  array_set a (length a) v = a ++ [v].
Proof.
  unfold array_set. rewrite decide_False by lia.
  by rewrite Nat.sub_diag.
Qed.

(** Writing the element an array already holds at [i] changes nothing. *)
Lemma array_set_same (a : list elem) (i : nat) (v : elem) :
  a !! i = Some v -> array_set a i v = a.
Proof.
  intros Hv. rewrite array_set_in_range by (by eapply lookup_lt_Some).
  by apply list_insert_id.
Qed.

(** One assignment of the copying loop: the first [i] entries already come
    from [r], the rest still from [a]. *)
Lemma array_set_copy_step (r a : list elem) (i : nat) (v : elem) :
  r !! i = Some v ->
  array_set (take i r ++ drop i a) i v = take (S i) r ++ drop (S i) a.
Proof.
  intros Hv.
  assert (Hi : (i < length r)%nat) by (by eapply lookup_lt_Some).
  assert (Hlen : length (take i r) = i) by (rewrite length_take; lia).
  rewrite (take_S_r r i v Hv), <- app_assoc. simpl.
  destruct (decide (i < length a)%nat) as [Ha | Ha].
  - rewrite array_set_in_range by (rewrite length_app, length_drop; lia).
    rewrite insert_app_r_alt by lia. rewrite Hlen, Nat.sub_diag.
    destruct (lookup_lt_is_Some_2 a i Ha) as [x Hx].
    by rewrite (drop_S a x i Hx).
  - rewrite (drop_ge a i) by lia. rewrite (drop_ge a (S i)) by lia.
    rewrite app_nil_r. rewrite <- Hlen at 2. apply array_set_at_end.
Qed.

Lemma forEach_assign_copy (r a : list elem) (n i : nat) :
  (i + n = length r)%nat ->
  forEach_assign Fetched OuterAngles n i
    {| outer := take i r ++ drop i a; fetched := r |}
  = {| outer := r ++ drop (length r) a; fetched := r |}.
Proof.
  revert i. induction n as [| n IH]; intros i Hlen; simpl.
  - replace i with (length r) by lia. by rewrite take_ge by lia.
  - destruct (lookup_lt_is_Some_2 r i) as [v Hv]; [lia |].
    rewrite Hv. simpl. rewrite (array_set_copy_step r a i v Hv).
    apply IH. lia.
Qed.

Lemma forEach_assign_self (n i : nat) (st : Store) :
  forEach_assign Fetched Fetched n i st = st.
Proof.
  revert i st. induction n as [| n IH]; intros i st; simpl; [done |].
  destruct (fetched st !! i) as [v |] eqn:Hv; [| apply IH].
  rewrite (array_set_same _ _ _ Hv). destruct st; apply IH.
Qed.

(** [get_angles_then] in closed form: the fetched entries, then whatever
    the component's array held beyond them. *)
Lemma get_angles_then_array (received angles : list elem) :
  get_angles_then (VArray received) angles
  = received ++ drop (length received) angles.
Proof.
  unfold get_angles_then, forEach_write. simpl.
  pose proof (forEach_assign_copy received angles (length received) 0) as H.
  rewrite take_0, drop_0 in H. simpl in H. by rewrite H.
Qed.

Lemma get_angles_then_not_array (v : Value) (angles : list elem) :
  as_array v = None -> get_angles_then v angles = angles.
Proof. intros H. unfold get_angles_then. by rewrite H. Qed.

(** The drafts' callback never touches the component's array. *)
Lemma get_position_then_id (v : Value) (angles : list elem) :
  get_position_then v angles = angles.
Proof.
  unfold get_position_then, forEach_write.
  destruct (as_array v) as [received |]; [| done].
  by rewrite forEach_assign_self.
Qed.

(** ** JointControl: validation lives in the submit handlers *)

Section JointControlFacts.
Import JointControl.

Lemma angleInputValid_true (c : Component) :
  angleInputValid c = true <->
  exists a, angleInput c = Some a /\ angle_in_bounds c a.
Proof.
  unfold angleInputValid, angle_in_bounds.
  destruct (angleInput c) as [a |]; split.
  - intros [H1 H2]%andb_true_iff. exists a.
    by rewrite <- !Qle_bool_iff.
  - intros (a' & [= <-] & H1 & H2). apply andb_true_iff.
    by rewrite !Qle_bool_iff.
  - done.
  - by intros (a' & [=] & _).
Qed.

Lemma speedInputValid_true (c : Component) :
  speedInputValid c = true <->
  exists v, speedInput c = Some v /\ speed_in_bounds c v.
Proof.
  unfold speedInputValid, speed_in_bounds.
  destruct (speedInput c) as [v |]; split.
  - intros [H1 H2]%andb_true_iff. exists v.
    by rewrite <- !Qle_bool_iff.
  - intros (v' & [= <-] & H1 & H2). apply andb_true_iff.
    by rewrite !Qle_bool_iff.
  - done.
  - by intros (v' & [=] & _).
Qed.

(** Both submit paths agree: they call [moveTo] on the two inputs exactly
    when both are valid, and do nothing otherwise. *)
Lemma submit_paths (s : State) (ev : Event) :
  ev = ClickSubmit \/ ev = SubmitForm ->
  step s ev =
    if angleInputValid (comp s) && speedInputValid (comp s)
    then moveTo (angleInput (comp s)) (speedInput (comp s)) s
    else s.
Proof.
  intros [-> | ->]; simpl;
    by destruct (angleInputValid (comp s)), (speedInputValid (comp s)).
Qed.

Lemma moveTo_comp (x y : elem) (s : State) : comp (moveTo x y s) = comp s.
Proof. by destruct x, y. Qed.

Lemma stop_comp (s : State) : comp (stop s) = comp s.
Proof. done. Qed.

(** The commanded pair changes only when a promise resolves. *)
Lemma targets_change_only_on_resolve (s : State) (ev : Event) :
  (forall k v, ev <> Settle k (Resolve v)) ->
  targetAngle (comp (step s ev)) = targetAngle (comp s) /\
  targetSpeed (comp (step s ev)) = targetSpeed (comp s).
Proof.
  intros Hev. destruct ev as [x | x | x | | | | k r]; simpl; try done.
  - destruct (_ && _); [by rewrite moveTo_comp | done].
  - destruct (_ || _); [done | by rewrite moveTo_comp].
  - by destruct (negb _).
  - destruct (inflight s !! k) as [p |]; [| done].
    destruct r as [v | e]; [by destruct (Hev k v) |].
    by destruct p.
Qed.

(** The bounds a component was mounted with never change. *)
Lemma step_bounds (s : State) (ev : Event) :
  minAngle (comp (step s ev)) = minAngle (comp s) /\
  maxAngle (comp (step s ev)) = maxAngle (comp s).
Proof.
  destruct ev as [x | x | x | | | | k r]; simpl; try done.
  - destruct (_ && _); [by rewrite moveTo_comp | done].
  - destruct (_ || _); [done | by rewrite moveTo_comp].
  - by destruct (negb _).
  - destruct (inflight s !! k) as [p |]; [| done].
    by destruct p, r.
Qed.

Lemma inv_mount i n a mn mx smn smx : inv mn mx (mount i n a mn mx smn smx).
Proof. repeat split; simpl; [by left | constructor]. Qed.

Lemma inv_moveTo_inputs mn mx (s : State) :
  inv mn mx s -> angleInputValid (comp s) = true ->
  inv mn mx (moveTo (angleInput (comp s)) (speedInput (comp s)) s).
Proof.
  intros (Hmn & Hmx & Ht & Hp) (a & Ha & Hlo & Hhi)%angleInputValid_true.
  rewrite Ha. destruct (speedInput (comp s)) as [v |]; [| done].
  repeat split; simpl; try done.
  apply Forall_app. split; [done |].
  constructor; [| constructor]. simpl. by rewrite <- Hmn, <- Hmx.
Qed.

Lemma inv_step mn mx (s : State) (ev : Event) :
  inv mn mx s -> inv mn mx (step s ev).
Proof.
  intros Hinv. pose proof Hinv as (Hmn & Hmx & Ht & Hp).
  destruct ev as [x | x | x | | | | k r]; simpl; try done.
  - destruct (angleInputValid (comp s)) eqn:Ha; simpl; [| done].
    destruct (speedInputValid (comp s)); [| done].
    by apply inv_moveTo_inputs.
  - destruct (angleInputValid (comp s)) eqn:Ha; simpl; [| done].
    destruct (speedInputValid (comp s)); simpl; [| done].
    by apply inv_moveTo_inputs.
  - destruct (negb _); [done |].
    repeat split; simpl; try done.
    apply Forall_app. split; [done |]. by repeat constructor.
  - destruct (inflight s !! k) as [p |] eqn:Hk; [| done].
    assert (Hpk : pending_ok mn mx p) by (by eapply Forall_lookup_1).
    assert (Hd : Forall (pending_ok mn mx) (delete k (inflight s))).
    { by apply Forall_delete. }
    destruct p as [a v |], r as [w | e]; repeat split; simpl; try done.
    + by right.
    + by left.
Qed.

Lemma inv_run mn mx (evs : list Event) (s : State) :
  inv mn mx s -> inv mn mx (run evs s).
Proof.
  revert s. induction evs as [| ev evs IH]; intros s Hs; [done |].
  simpl. apply IH. by apply inv_step.
Qed.

End JointControlFacts.

Section JointControlClaims.
Import JointControl.

(** C1, as stated, fails: [moveTo] itself checks nothing but [null], and
    nothing checks the joint id.  Called on the base joint with the angle
    200, above the maximum 180, [moveTo] logs, invokes [move_joint] with
    that angle, and the acknowledgement commits 200 as the commanded angle.
    And a JointControl mounted with the id 6, which [JOINTS] does not list,
    sends its [move_joint] like any other. *)
Lemma moveTo_sends_out_of_bounds_angle :
  maxAngle (comp base) < 200 /\
  trace (moveTo (Some 200) (Some 30) base)
    = [ConsoleLog (MsgMoving 0 200); Invoke (move_joint 0 200 30)] /\
  targetAngle
    (comp (step (moveTo (Some 200) (Some 30) base) (Settle 0 (Resolve VUndefined))))
    = 200 /\
  6%nat ∉ map snd JOINTS /\
  trace (step (mount_default 6 "gripper" (Some 0)) ClickSubmit)
    = [ConsoleLog (MsgMoving 6 0); Invoke (move_joint 6 0 0)].
Proof.
  split; [reflexivity |]. split; [reflexivity |]. split; [reflexivity |].
  split; [| reflexivity].
  rewrite list_elem_of_In. simpl. intuition discriminate.
Qed.

(** C1, amended: the bounds are checked by the two submit handlers (the
    form's [on:submit] and the Submit button, which is disabled on
    invalid input), not by [moveTo].  With both inputs inside their
    inclusive bounds a submit calls [moveTo] and so sends [move_joint];
    with an input outside its bounds, or [null], a submit changes nothing:
    no request, no log entry, the commanded pair as before. *)
Theorem submit_checks_bounds (s : State) (ev : Event) :
  ev = ClickSubmit \/ ev = SubmitForm ->
  (forall a v, angleInput (comp s) = Some a -> speedInput (comp s) = Some v ->
     angle_in_bounds (comp s) a -> speed_in_bounds (comp s) v ->
     step s ev = moveTo (Some a) (Some v) s /\
     trace (step s ev)
       = trace s ++ [ConsoleLog (MsgMoving (id (comp s)) a);
                     Invoke (move_joint (id (comp s)) a v)]) /\
  (forall a v, angleInput (comp s) = Some a -> speedInput (comp s) = Some v ->
     a < minAngle (comp s) \/ maxAngle (comp s) < a \/
     v < minSpeed (comp s) \/ maxSpeed (comp s) < v ->
     step s ev = s) /\
  (angleInput (comp s) = None \/ speedInput (comp s) = None -> step s ev = s).
Proof.
  intros Hev. rewrite (submit_paths s ev Hev). split; [| split].
  - intros a v Ha Hv Hab Hvb.
    assert (Hav : angleInputValid (comp s) = true)
      by (apply angleInputValid_true; eauto).
    assert (Hsv : speedInputValid (comp s) = true)
      by (apply speedInputValid_true; eauto).
    rewrite Hav, Hsv, Ha, Hv. by simpl.
  - intros a v Ha Hv Hout.
    destruct (angleInputValid (comp s)) eqn:Hav; [| done].
    destruct (speedInputValid (comp s)) eqn:Hsv; [| done].
    apply angleInputValid_true in Hav as (a' & Ha' & Hlo & Hhi).
    apply speedInputValid_true in Hsv as (v' & Hv' & Hlo' & Hhi').
    rewrite Ha in Ha'. rewrite Hv in Hv'.
    injection Ha' as <-. injection Hv' as <-.
    exfalso. destruct Hout as [H | [H | [H | H]]]; lra.
  - intros [H | H].
    + unfold angleInputValid. by rewrite H.
    + unfold speedInputValid. rewrite H. by rewrite andb_false_r.
Qed.

(** An angle exactly on the upper bound is sent; one unit beyond is not. *)
Lemma submit_checks_bounds_witness :
  trace (step (step base (InputAngle (Some 180))) ClickSubmit)
    = [ConsoleLog (MsgMoving 0 180); Invoke (move_joint 0 180 0)] /\
  step (step base (InputAngle (Some 181))) SubmitForm
    = step base (InputAngle (Some 181)).
Proof.
  split.
  - apply (proj1 (submit_checks_bounds (step base (InputAngle (Some 180)))
                    ClickSubmit (or_introl eq_refl)) 180 0);
      try reflexivity; split; simpl; lra.
  - apply (proj1 (proj2 (submit_checks_bounds (step base (InputAngle (Some 181)))
                           SubmitForm (or_intror eq_refl))) 181 0);
      try reflexivity.
    right; left. simpl. lra.
Defined.

(** C2: whatever the user and the backend do to a mounted JointControl,
    a commanded angle other than 0 lies within the bounds the component
    was mounted with. *)
Theorem commanded_angle_within_bounds
    (i : nat) (n : string) (a : elem) (mn mx smn smx : Q) (evs : list Event) :
  ~ targetAngle (comp (run evs (mount i n a mn mx smn smx))) == 0 ->
  mn <= targetAngle (comp (run evs (mount i n a mn mx smn smx))) /\
  targetAngle (comp (run evs (mount i n a mn mx smn smx))) <= mx.
Proof.
  intros Hnz.
  destruct (inv_run mn mx evs _ (inv_mount i n a mn mx smn smx))
    as (_ & _ & [H0 | Hin] & _); [| done].
  exfalso. apply Hnz. by rewrite H0.
Qed.

(** The elbow is sent to 45 degrees at speed 30 and the backend
    acknowledges. *)
Lemma commanded_angle_within_bounds_witness :
  targetAngle
    (comp (run [InputAngle (Some 45); InputSpeed (Some 30); ClickSubmit;
                Settle 0 (Resolve VUndefined)]
             elbow)) = 45 /\
  -180 <= 45 /\ 45 <= 180.
Proof.
  split; [reflexivity |].
  apply (commanded_angle_within_bounds 2 "elbow" (Some 0) (-180) 180 0 180
           [InputAngle (Some 45); InputSpeed (Some 30); ClickSubmit;
            Settle 0 (Resolve VUndefined)]).
  simpl. intros H. discriminate H.
Defined.

(** C4, as stated, fails in its last clause: a rejection is not surfaced
    to the caller.  The base joint is sent to 90 at speed 10 and the
    backend rejects: the promise [moveTo] returned is fulfilled with
    [undefined], the same as after an acknowledgement; the component is
    unchanged; and all the rejection leaves is one [console.error] entry. *)
Lemma move_rejection_not_surfaced :
  moveTo_returns (Some 90) (Some 10) (Reject "busy") = Resolve VUndefined /\
  moveTo_returns (Some 90) (Some 10) (Reject "busy")
    = moveTo_returns (Some 90) (Some 10) (Resolve VUndefined) /\
  comp (step (moveTo (Some 90) (Some 10) base) (Settle 0 (Reject "busy")))
    = comp (moveTo (Some 90) (Some 10) base) /\
  trace (step (moveTo (Some 90) (Some 10) base) (Settle 0 (Reject "busy")))
    = trace (moveTo (Some 90) (Some 10) base) ++ [ConsoleError "busy"].
Proof. repeat split. Qed.

(** C4, amended: [moveTo] sends the request and parks its callbacks
    without touching the commanded pair; when that request resolves the
    pair becomes the angle and speed it was called with; when it is
    rejected the component is as before and the error is written to
    [console.error], nothing else; no event other than a resolved promise
    changes the pair; and the caller is told nothing either way: the
    promise [moveTo] returns fulfils with [undefined] whatever the backend
    answers. *)
Theorem move_commits_only_on_ack (s s' : State) (k : nat) (a v : Q) :
  inflight s' !! k = Some (PMove a v) ->
  (comp (moveTo (Some a) (Some v) s) = comp s /\
   inflight (moveTo (Some a) (Some v) s) = inflight s ++ [PMove a v] /\
   inflight (moveTo (Some a) (Some v) s) !! length (inflight s) = Some (PMove a v) /\
   trace (moveTo (Some a) (Some v) s)
     = trace s ++ [ConsoleLog (MsgMoving (id (comp s)) a);
                   Invoke (move_joint (id (comp s)) a v)]) /\
  (forall w,
     targetAngle (comp (step s' (Settle k (Resolve w)))) = a /\
     targetSpeed (comp (step s' (Settle k (Resolve w)))) = v) /\
  (forall e,
     comp (step s' (Settle k (Reject e))) = comp s' /\
     trace (step s' (Settle k (Reject e))) = trace s' ++ [ConsoleError e]) /\
  (forall ev, (forall j w, ev <> Settle j (Resolve w)) ->
     targetAngle (comp (step s' ev)) = targetAngle (comp s') /\
     targetSpeed (comp (step s' ev)) = targetSpeed (comp s')) /\
  (forall backend, moveTo_returns (Some a) (Some v) backend = Resolve VUndefined).
Proof.
  intros Hk. split; [| split; [| split; [| split]]].
  - repeat split. simpl. by rewrite lookup_app_r, Nat.sub_diag.
  - intros w. simpl. by rewrite Hk.
  - intros e. simpl. by rewrite Hk.
  - apply targets_change_only_on_resolve.
  - done.
Qed.

(** The base joint is sent to 90 at speed 10: acknowledged, the pair is
    (90, 10); rejected, it stays (0, 0) and the error is logged. *)
Lemma move_commits_only_on_ack_witness :
  let s1 := moveTo (Some 90) (Some 10) base in
  (targetAngle (comp (step s1 (Settle 0 (Resolve VUndefined)))) = 90 /\
   targetSpeed (comp (step s1 (Settle 0 (Resolve VUndefined)))) = 10) /\
  (comp (step s1 (Settle 0 (Reject "busy"))) = comp s1 /\
   trace (step s1 (Settle 0 (Reject "busy"))) = trace s1 ++ [ConsoleError "busy"]).
Proof.
  intros s1.
  pose proof (move_commits_only_on_ack base s1 0 90 10 eq_refl)
    as (_ & Hack & Hrej & _).
  split; [apply (Hack VUndefined) | apply (Hrej "busy"%string)].
Defined.

(** C5: [stop] has no guard.  In every state, moving or idle, it logs and
    invokes [stop_joint]; and when a parked stop resolves, the commanded
    angle and speed are 0 whatever they were. *)
Theorem stop_sent_and_resets (s s' : State) (k : nat) (w : Value) :
  inflight s' !! k = Some PStop ->
  (comp (stop s) = comp s /\
   inflight (stop s) = inflight s ++ [PStop] /\
   trace (stop s)
     = trace s ++ [ConsoleLog (MsgStopping (id (comp s)));
                   Invoke (stop_joint (id (comp s)))]) /\
  targetAngle (comp (step s' (Settle k (Resolve w)))) = 0 /\
  targetSpeed (comp (step s' (Settle k (Resolve w)))) = 0.
Proof.
  intros Hk. split; [done |]. simpl. by rewrite Hk.
Qed.

(** The elbow has reached its commanded 45 degrees, so it is idle; the
    stop still goes out, and its acknowledgement zeroes the pair. *)
Lemma stop_sent_and_resets_witness :
  let s := run [InputAngle (Some 45); InputSpeed (Some 30); ClickSubmit;
                Settle 0 (Resolve VUndefined); PropAngle (Some 45)]
             elbow in
  moving (comp s) = false /\
  targetAngle (comp s) = 45 /\
  trace (stop s) = trace s ++ [ConsoleLog (MsgStopping 2); Invoke (stop_joint 2)] /\
  targetAngle (comp (step (stop s) (Settle 0 (Resolve VUndefined)))) = 0 /\
  targetSpeed (comp (step (stop s) (Settle 0 (Resolve VUndefined)))) = 0.
Proof.
  intros s.
  pose proof (stop_sent_and_resets s (stop s) 0 VUndefined eq_refl)
    as ((_ & _ & Htr) & Ha & Hv).
  split; [reflexivity |]. split; [reflexivity |].
  split; [exact Htr |]. split; [exact Ha | exact Hv].
Defined.

End JointControlClaims.

(** ** App.svelte: polling *)

Section AppFacts.
Import App.

Lemma ready_flags :
  connected ready = true /\ initialized ready = true /\
  intervals ready = 1%nat /\ pending ready = [] /\ angles ready = initial_angles.
Proof. by repeat split. Qed.

Lemma disconnected_while_polling_flags :
  connected disconnected_while_polling = false /\
  initialized disconnected_while_polling = true /\
  intervals disconnected_while_polling = 1%nat.
Proof. by repeat split. Qed.

(** Every event extends the trace; a fetch is added only by a tick of an
    existing timer, and [init] only by a handler that leaves [connected]
    set. *)
Lemma step_trace (s : State) (ev : Event) :
  exists es, trace (step s ev) = trace s ++ es /\
    (In (Invoke get_angles) es -> ev = Tick /\ intervals s <> 0%nat) /\
    (In (Invoke init) es -> connected (step s ev) = true).
Proof.
  destruct ev as [x | x | | | | k r]; simpl.
  - exists []. rewrite app_nil_r. by destruct (connected s).
  - exists []. rewrite app_nil_r. by destruct (connected s).
  - destruct (connected s).
    + exists []. by rewrite app_nil_r.
    + eexists. split; [reflexivity |]. simpl. intuition congruence.
  - destruct (connected s && initialized s).
    + eexists. split; [reflexivity |]. simpl. intuition congruence.
    + exists []. by rewrite app_nil_r.
  - destruct (intervals s) eqn:Hn.
    + exists []. by rewrite app_nil_r.
    + eexists. split; [reflexivity |]. simpl. intuition congruence.
  - destruct (pending s !! k) as [p |]; [| exists []; by rewrite app_nil_r].
    destruct p, r as [v | e]; simpl;
      try (exists []; by rewrite app_nil_r);
      try (eexists; split; [reflexivity |]; simpl; intuition congruence).
    + destruct (truthy v); simpl.
      * eexists; split; [reflexivity |]; simpl; intuition congruence.
      * exists []; by rewrite app_nil_r.
    + eexists; split; [by rewrite <- app_assoc |]. simpl. intuition congruence.
    + eexists; split; [by rewrite <- app_assoc |]. simpl. intuition congruence.
Qed.

Lemma effects_of_step (s : State) (ev : Event) :
  trace (step s ev) = trace s ++ effects_of s ev.
Proof.
  unfold effects_of. destruct (step_trace s ev) as (es & -> & _).
  by rewrite drop_app_length.
Qed.

(** A timer exists only once [init] has been acknowledged. *)
Lemma step_timer_initialized (s : State) (ev : Event) :
  (intervals s <> 0%nat -> initialized s = true) ->
  intervals (step s ev) <> 0%nat -> initialized (step s ev) = true.
Proof.
  intros Hs. destruct ev as [x | x | | | | k r]; simpl.
  - by destruct (connected s).
  - by destruct (connected s).
  - by destruct (connected s).
  - by destruct (connected s && initialized s).
  - destruct (intervals s) as [| m] eqn:Hm; [congruence |].
    intros _. simpl. by apply Hs.
  - destruct (pending s !! k) as [p |]; [| done].
    destruct p, r as [v | e]; simpl; try done.
    by destruct (truthy v).
Qed.

Lemma run_timer_initialized (evs : list Event) (s : State) :
  (intervals s <> 0%nat -> initialized s = true) ->
  intervals (run evs s) <> 0%nat -> initialized (run evs s) = true.
Proof.
  revert s. induction evs as [| ev evs IH]; intros s Hs; [done |].
  simpl. apply IH. by apply step_timer_initialized.
Qed.

(** [initialized] is raised by an acknowledged [init] and by nothing else. *)
Lemma step_initialized (s : State) (ev : Event) :
  initialized s = false -> initialized (step s ev) = true ->
  exists k v, ev = Settle k (Resolve v) /\ pending s !! k = Some PInit.
Proof.
  intros Hs. destruct ev as [x | x | | | | k r]; simpl.
  - destruct (connected s); simpl; congruence.
  - destruct (connected s); simpl; congruence.
  - destruct (connected s); simpl; congruence.
  - destruct (connected s && initialized s); simpl; congruence.
  - destruct (intervals s); simpl; congruence.
  - destruct (pending s !! k) as [p |] eqn:Hk; [| congruence].
    destruct p, r as [v | e]; simpl; try congruence.
    + destruct (truthy v); simpl; congruence.
    + intros _. by exists k, v.
Qed.

Lemma run_ticks (n : nat) (s : State) :
  intervals s <> 0%nat ->
  pending (run (replicate n Tick) s) = pending s ++ replicate n PGetAngles /\
  trace (run (replicate n Tick) s) = trace s ++ replicate n (Invoke get_angles) /\
  intervals (run (replicate n Tick) s) = intervals s.
Proof.
  revert s. induction n as [| n IH]; intros s Hs; simpl.
  - by rewrite !app_nil_r.
  - destruct (intervals s) as [| m] eqn:Hm; [congruence |].
    destruct (IH (tick s)) as (Hp & Ht & Hi); [simpl; congruence |].
    rewrite Hp, Ht, Hi. simpl. by rewrite <- !app_assoc.
Qed.

Lemma filter_fetch_replicate (n : nat) :
  List.filter is_fetch (replicate n PGetAngles) = replicate n PGetAngles.
Proof. induction n as [| n IH]; [done |]. simpl. by rewrite IH. Qed.

Lemma fetches_in_flight_app (s : State) (l : list Pending) (n : nat) :
  pending s = l ++ replicate n PGetAngles ->
  fetches_in_flight s = (length (List.filter is_fetch l) + n)%nat.
Proof.
  intros Hp. unfold fetches_in_flight.
  by rewrite Hp, List.filter_app, length_app, filter_fetch_replicate,
    length_replicate.
Qed.

End AppFacts.

Section AppClaims.
Import App.

(** C3, as stated, fails: there is no length check.  A fetch of three
    angles overwrites the first three joints and leaves the other three,
    and a fetch of seven makes the array seven long. *)
Lemma short_fetch_overwrites_prefix :
  angles (run [Tick; Settle 0 (Resolve (VArray [Some 10; Some 20; Some 30]))] ready)
    = [Some 10; Some 20; Some 30; Some 0; Some 0; Some 0] /\
  length (angles
    (run [Tick; Settle 0 (Resolve (VArray (replicate 7 (Some 5))))] ready))
    = 7%nat.
Proof. split; vm_compute; reflexivity. Qed.

(** C3, amended: when a fetch resolves with an array, the one callback
    writes entry [i] of it to [angles[i]] for every [i] it has: the result
    is the fetched entries followed by whatever [angles] held beyond
    them, so a fetch as long as [angles] replaces all of it at once.  A
    value that is not an array, or a rejected fetch, leaves [angles] as
    it was. *)
Theorem fetch_overwrites_by_index (s : State) (k : nat) :
  pending s !! k = Some PGetAngles ->
  (forall received,
     angles (step s (Settle k (Resolve (VArray received))))
       = received ++ drop (length received) (angles s)) /\
  (forall received, length received = length (angles s) ->
     angles (step s (Settle k (Resolve (VArray received)))) = received) /\
  (forall v, as_array v = None ->
     angles (step s (Settle k (Resolve v))) = angles s) /\
  (forall e, angles (step s (Settle k (Reject e))) = angles s).
Proof.
  intros Hk. simpl. rewrite Hk. simpl. repeat split.
  - intros received. apply get_angles_then_array.
  - intros received Hlen. rewrite get_angles_then_array, Hlen.
    by rewrite drop_all, app_nil_r.
  - intros v Hv. by apply get_angles_then_not_array.
Qed.

(** A fetch of six angles in the ready state replaces all six. *)
Lemma fetch_overwrites_by_index_witness :
  angles (step (step ready Tick)
            (Settle 0 (Resolve (VArray [Some 1; Some 2; Some 3; Some 4; Some 5; Some 6]))))
    = [Some 1; Some 2; Some 3; Some 4; Some 5; Some 6].
Proof.
  apply (proj1 (proj2 (fetch_overwrites_by_index (step ready Tick) 0
                         ltac:(vm_compute; reflexivity)))).
  vm_compute; reflexivity.
Defined.

(** C6, as stated, fails.  The polling-only draft fetches on its first
    tick with no connect and no init ever invoked; and in [App.svelte]
    the timer outlives the connection: after a second, rejected [init]
    has disconnected the session, a tick still invokes [get_angles], and
    nothing is signalled. *)
Lemma polling_without_ready_session :
  AppPoll.trace (AppPoll.run [AppPoll.Tick] AppPoll.initial)
    = [SetInterval 20; Invoke get_position] /\
  connected disconnected_while_polling = false /\
  effects_of disconnected_while_polling Tick = [Invoke get_angles].
Proof. repeat split; vm_compute; reflexivity. Qed.

(** C6, amended: in [App.svelte], in every state the program can reach,
    a fetch is invoked only by a tick of the polling timer and only once
    [init] has been acknowledged; [initialized] is raised only by an
    acknowledged [init]; and [init] is invoked only by a handler that
    leaves [connected] set. *)
Theorem polling_only_after_init (evs : list Event) (ev : Event) :
  (In (Invoke get_angles) (effects_of (run evs initial) ev) ->
     ev = Tick /\ initialized (run evs initial) = true) /\
  (initialized (run evs initial) = false ->
   initialized (step (run evs initial) ev) = true ->
     exists k v, ev = Settle k (Resolve v) /\
                 pending (run evs initial) !! k = Some PInit) /\
  (In (Invoke init) (effects_of (run evs initial) ev) ->
     connected (step (run evs initial) ev) = true).
Proof.
  set (s := run evs initial).
  destruct (step_trace s ev) as (es & Hes & Hfetch & Hinit).
  assert (Heff : effects_of s ev = es).
  { unfold effects_of. by rewrite Hes, drop_app_length. }
  rewrite Heff. split; [| split].
  - intros [-> Hn]%Hfetch. split; [done |].
    by apply (run_timer_initialized evs initial).
  - apply step_initialized.
  - exact Hinit.
Qed.

(** In the ready state a tick fetches, and [initialized] is set. *)
Lemma polling_only_after_init_witness :
  In (Invoke get_angles) (effects_of ready Tick) /\
  initialized ready = true.
Proof.
  unfold ready.
  assert (H : In (Invoke get_angles)
                (effects_of
                   (run [Settle 0 (Resolve (VBool false)); ClickConnect;
                         Settle 0 (Resolve VUndefined); Settle 0 (Resolve VUndefined)]
                      initial) Tick))
    by (vm_compute; left; reflexivity).
  split; [exact H |].
  apply (proj1 (polling_only_after_init
                  [Settle 0 (Resolve (VBool false)); ClickConnect;
                   Settle 0 (Resolve VUndefined); Settle 0 (Resolve VUndefined)]
                  Tick) H).
Defined.

(** C7, as stated, fails: the interval callback has no overlap guard.
    Two ticks with no settlement in between leave two fetches
    outstanding, each invoked on the backend. *)
Lemma two_fetches_in_flight :
  fetches_in_flight (run [Tick; Tick] ready) = 2%nat /\
  trace (run [Tick; Tick] ready) = trace ready ++ [Invoke get_angles; Invoke get_angles].
Proof. split; vm_compute; reflexivity. Qed.

(** C7, amended: once a polling timer exists, every tick invokes
    [get_angles], whatever is outstanding: [n] ticks with no settlement
    in between add [n] fetches in flight and [n] backend calls. *)
Theorem every_tick_fetches (s : State) (n : nat) :
  intervals s <> 0%nat ->
  fetches_in_flight (run (replicate n Tick) s) = (fetches_in_flight s + n)%nat /\
  trace (run (replicate n Tick) s) = trace s ++ replicate n (Invoke get_angles).
Proof.
  intros Hs. destruct (run_ticks n s Hs) as (Hp & Ht & _).
  split; [| done]. by apply fetches_in_flight_app.
Qed.

Lemma every_tick_fetches_witness :
  fetches_in_flight (run (replicate 3 Tick) ready) = 3%nat /\
  trace (run (replicate 3 Tick) ready)
    = trace ready ++ replicate 3 (Invoke get_angles).
Proof.
  apply (every_tick_fetches ready 3). vm_compute. discriminate.
Defined.



End AppClaims.

(** ** The earlier drafts: the shadowed array *)

Section DraftFacts.

Lemma AppRetry_step_angles (s : AppRetry.State) (ev : AppRetry.Event) :
  AppRetry.angles (AppRetry.step s ev) = AppRetry.angles s.
Proof.
  destruct ev as [| | k r]; simpl.
  - by destruct (AppRetry.intervals s).
  - by destruct (AppRetry.timeouts s).
  - destruct (AppRetry.pending s !! k) as [p |]; [| done].
    destruct p, r as [v | e]; simpl; try done.
    apply get_position_then_id.
Qed.

Lemma AppRetry_run_angles (evs : list AppRetry.Event) (s : AppRetry.State) :
  AppRetry.angles (AppRetry.run evs s) = AppRetry.angles s.
Proof.
  revert s. induction evs as [| ev evs IH]; intros s; [done |].
  simpl. by rewrite IH, AppRetry_step_angles.
Qed.

Lemma AppPoll_step_angles (s : AppPoll.State) (ev : AppPoll.Event) :
  AppPoll.angles (AppPoll.step s ev) = AppPoll.angles s.
Proof.
  destruct ev as [| k r]; simpl; [done |].
  destruct (AppPoll.pending s !! k) as [p |]; [| done].
  destruct p, r as [v | e]; simpl; [| done].
  apply get_position_then_id.
Qed.

Lemma AppPoll_run_angles (evs : list AppPoll.Event) (s : AppPoll.State) :
  AppPoll.angles (AppPoll.run evs s) = AppPoll.angles s.
Proof.
  revert s. induction evs as [| ev evs IH]; intros s; [done |].
  simpl. by rewrite IH, AppPoll_step_angles.
Qed.

(** C10: in both drafts the loop assigns into the array it iterates, so
    the fetched array comes out as it went in and the component's
    [angles] is never written: after any events it still holds its six
    initial zeros, and each JointControl is handed the angle 0. *)
Theorem drafts_never_update_angles
    (evs : list AppRetry.Event) (evs' : list AppPoll.Event) (st : Store) :
  forEach_write Fetched Fetched st = st /\
  AppRetry.angles (AppRetry.run evs AppRetry.initial) = replicate 6 (Some 0) /\
  AppPoll.angles (AppPoll.run evs' AppPoll.initial) = replicate 6 (Some 0) /\
  map (fun joint => angle_prop (AppRetry.angles (AppRetry.run evs AppRetry.initial)) joint.2)
      JOINTS = replicate 6 (Some 0) /\
  map (fun joint => angle_prop (AppPoll.angles (AppPoll.run evs' AppPoll.initial)) joint.2)
      JOINTS = replicate 6 (Some 0).
Proof.
  rewrite AppRetry_run_angles, AppPoll_run_angles.
  split; [apply forEach_assign_self |]. by repeat split.
Qed.

End DraftFacts.

(** ** The calibration mask *)

Section CalibrateFacts.
Import Dispatcher.

Lemma shiftr_zero_iff_no_high_bit (mask : Z) :
  Z.shiftr mask JOINT_COUNT = 0%Z <->
  forall i, (JOINT_COUNT <= i)%Z -> Z.testbit mask i = false.
Proof.
  unfold JOINT_COUNT. split.
  - intros H i Hi.
    replace i with ((i - 6) + 6)%Z by lia.
    rewrite <- Z.shiftr_spec by lia. rewrite H. apply Z.bits_0.
  - intros H. apply Z.bits_inj'. intros n Hn.
    rewrite Z.shiftr_spec by lia. rewrite Z.bits_0. apply H. lia.
Qed.

(** C9: the dispatcher's [calibrate] refuses the empty mask and any mask
    with a bit at position 6 or above, sending nothing; any other mask
    goes out as one request that carries the mask unchanged, so it covers
    exactly the selected joints.  The mask [App.svelte] passes,
    [0b111111], is accepted and selects the joints 0 to 5. *)
Theorem calibrate_checks_mask (joint_mask : Z) :
  (joint_mask = 0%Z -> calibrate joint_mask = (inr NoJointSelected, [])) /\
  ((exists i, (JOINT_COUNT <= i)%Z /\ selects joint_mask i = true) ->
     exists e, calibrate joint_mask = (inr e, [])) /\
  (joint_mask <> 0%Z ->
   (forall i, (JOINT_COUNT <= i)%Z -> selects joint_mask i = false) ->
     calibrate joint_mask = (inl tt, [request joint_mask])) /\
  App.effects_of App.ready App.ClickCalibrate = [Invoke (request 63)] /\
  calibrate 63 = (inl tt, [request 63]) /\
  (forall i, selects 63 i = true <-> (0 <= i < JOINT_COUNT)%Z).
Proof.
  unfold calibrate, selects.
  split; [| split; [| split; [| split; [| split]]]].
  - by intros ->.
  - intros (i & Hi & Hbit).
    destruct (joint_mask =? 0)%Z; [by eexists |].
    destruct (Z.shiftr joint_mask JOINT_COUNT =? 0)%Z eqn:Hs; [| by eexists].
    apply Z.eqb_eq in Hs.
    rewrite (proj1 (shiftr_zero_iff_no_high_bit joint_mask) Hs i Hi) in Hbit.
    discriminate.
  - intros Hnz Hhigh.
    apply Z.eqb_neq in Hnz. rewrite Hnz.
    apply shiftr_zero_iff_no_high_bit in Hhigh.
    by rewrite Hhigh.
  - vm_compute. reflexivity.
  - reflexivity.
  - intros i. split.
    + intros Hbit.
      destruct (Z.ltb_spec i 0) as [Hneg | Hpos];
        [by rewrite Z.testbit_neg_r in Hbit |].
      destruct (Z.ltb_spec i 6) as [Hlt | Hge]; [unfold JOINT_COUNT; lia |].
      exfalso.
      assert (H63 : Z.shiftr 63 JOINT_COUNT = 0%Z) by reflexivity.
      rewrite (proj1 (shiftr_zero_iff_no_high_bit 63) H63 i Hge) in Hbit.
      discriminate.
    + unfold JOINT_COUNT. intros [Hlo Hhi].
      assert (Hi : (i = 0 \/ i = 1 \/ i = 2 \/ i = 3 \/ i = 4 \/ i = 5)%Z) by lia.
      by destruct Hi as [-> | [-> | [-> | [-> | [-> | ->]]]]].
Qed.

(** The empty mask, a mask naming joint 6, and the elbow alone. *)
Lemma calibrate_checks_mask_witness :
  calibrate 0 = (inr NoJointSelected, []) /\
  (exists e, calibrate 64 = (inr e, [])) /\
  calibrate 4 = (inl tt, [request 4]).
Proof.
  split; [| split].
  - apply (proj1 (calibrate_checks_mask 0)). reflexivity.
  - apply (proj1 (proj2 (calibrate_checks_mask 64))).
    exists 6%Z. split; [unfold JOINT_COUNT; lia | reflexivity].
  - apply (proj1 (proj2 (proj2 (calibrate_checks_mask 4)))); [lia |].
    apply shiftr_zero_iff_no_high_bit. reflexivity.
Defined.

End CalibrateFacts.


(** ** JointControl: what reaches the backend *)

Section JointControlRequests.
Import JointControl.

Lemma same_props_refl (c : Component) : same_props c c.
Proof. by repeat split. Qed.

Lemma same_props_angle (c c' : Component) (a : Q) :
  same_props c c' -> angle_in_bounds c' a -> angle_in_bounds c a.
Proof.
  intros (_ & _ & Hmn & Hmx & _) [Hlo Hhi]. unfold angle_in_bounds.
  by rewrite <- Hmn, <- Hmx.
Qed.

Lemma same_props_speed (c c' : Component) (v : Q) :
  same_props c c' -> speed_in_bounds c' v -> speed_in_bounds c v.
Proof.
  intros (_ & _ & _ & _ & Hmn & Hmx) [Hlo Hhi]. unfold speed_in_bounds.
  by rewrite <- Hmn, <- Hmx.
Qed.

Lemma joint_inv_mount i n a mn mx smn smx :
  joint_inv (comp (mount i n a mn mx smn smx)) (mount i n a mn mx smn smx).
Proof.
  split; [apply same_props_refl |]. split; [by left |].
  split; constructor.
Qed.

(** A valid pair of inputs, sent by [moveTo]. *)
Lemma joint_inv_moveTo_inputs (c : Component) (s : State) :
  joint_inv c s ->
  angleInputValid (comp s) = true -> speedInputValid (comp s) = true ->
  joint_inv c (moveTo (angleInput (comp s)) (speedInput (comp s)) s).
Proof.
  intros (Hp & Hc & Hq & Ht)
    (a & Ha & Hab)%angleInputValid_true (v & Hv & Hvb)%speedInputValid_true.
  rewrite Ha, Hv.
  pose proof (same_props_angle c _ a Hp Hab) as Hab'.
  pose proof (same_props_speed c _ v Hp Hvb) as Hvb'.
  destruct Hp as (Hid & Hp).
  split; [by split |]. split; [done |]. split; simpl.
  - apply Forall_app. split; [done |].
    constructor; [by split | constructor].
  - apply Forall_app. split; [done |].
    constructor; [done |]. constructor; [| constructor].
    simpl. by rewrite Hid.
Qed.

Lemma joint_inv_step (c : Component) (s : State) (ev : Event) :
  joint_inv c s -> joint_inv c (step s ev).
Proof.
  intros Hinv. pose proof Hinv as (Hp & Hc & Hq & Ht).
  destruct ev as [x | x | x | | | | k r]; simpl; try done.
  - destruct (angleInputValid (comp s)) eqn:Ha; simpl; [| done].
    destruct (speedInputValid (comp s)) eqn:Hv; [| done].
    by apply joint_inv_moveTo_inputs.
  - destruct (angleInputValid (comp s)) eqn:Ha; simpl; [| done].
    destruct (speedInputValid (comp s)) eqn:Hv; simpl; [| done].
    by apply joint_inv_moveTo_inputs.
  - destruct (negb _); [done |].
    split; [done |]. split; [done |]. split; simpl.
    + apply Forall_app. split; [done |]. by repeat constructor.
    + apply Forall_app. split; [done |].
      constructor; [done |]. constructor; [| constructor].
      by destruct Hp as (-> & _).
  - destruct (inflight s !! k) as [p |] eqn:Hk; [| done].
    assert (Hpk : request_in_bounds c p) by (by eapply Forall_lookup_1).
    assert (Hd : Forall (request_in_bounds c) (delete k (inflight s)))
      by (by apply Forall_delete).
    destruct p as [a v |], r as [w | e]; simpl.
    + split; [done |]. split; [by right |]. by split.
    + split; [done |]. split; [done |]. split; [done |].
      apply Forall_app. split; [done |]. by repeat constructor.
    + split; [done |]. split; [by left |]. split; [done |].
      apply Forall_app. split; [done |]. by repeat constructor.
    + split; [done |]. split; [done |]. split; [done |].
      apply Forall_app. split; [done |]. by repeat constructor.
Qed.

Lemma joint_inv_run (c : Component) (evs : list Event) (s : State) :
  joint_inv c s -> joint_inv c (run evs s).
Proof.
  revert s. induction evs as [| ev evs IH]; intros s Hs; [done |].
  simpl. apply IH. by apply joint_inv_step.
Qed.

(** X1: whatever the user and the backend do, a JointControl adds to the
    trace only console output and requests for its own joint, and every
    [move_joint] it sends carries an angle and a speed inside the bounds it
    was mounted with. *)
Theorem requests_sent_in_bounds
    (i : nat) (n : string) (a : elem) (mn mx smn smx : Q) (evs : list Event) :
  Forall (effect_of_joint (comp (mount i n a mn mx smn smx)))
    (trace (run evs (mount i n a mn mx smn smx))).
Proof.
  by destruct (joint_inv_run _ evs _ (joint_inv_mount i n a mn mx smn smx))
    as (_ & _ & _ & H).
Qed.

(** X2: the commanded angle and speed are always a pair: both the literal
    0, as at creation and after an acknowledged stop, or both inside their
    bounds, as validated together by one submit; and the id, the name and
    the four bounds are those of the mount. *)
Theorem commanded_pair_valid
    (i : nat) (n : string) (a : elem) (mn mx smn smx : Q) (evs : list Event) :
  same_props (comp (mount i n a mn mx smn smx))
    (comp (run evs (mount i n a mn mx smn smx))) /\
  ((targetAngle (comp (run evs (mount i n a mn mx smn smx))) = 0 /\
    targetSpeed (comp (run evs (mount i n a mn mx smn smx))) = 0) \/
   ((mn <= targetAngle (comp (run evs (mount i n a mn mx smn smx))) /\
     targetAngle (comp (run evs (mount i n a mn mx smn smx))) <= mx) /\
    (smn <= targetSpeed (comp (run evs (mount i n a mn mx smn smx))) /\
     targetSpeed (comp (run evs (mount i n a mn mx smn smx))) <= smx))).
Proof.
  by destruct (joint_inv_run _ evs _ (joint_inv_mount i n a mn mx smn smx))
    as (Hp & Hc & _).
Qed.

(** X3: the two ways to submit are guarded differently in the source (an
    [if] in the form's handler, a [disabled] attribute on the button) but
    do the same thing in every state. *)
Theorem submit_paths_agree (s : State) :
  step s ClickSubmit = step s SubmitForm.
Proof.
  rewrite (submit_paths s ClickSubmit), (submit_paths s SubmitForm); auto.
Qed.

End JointControlRequests.

(** ** JointControl: the STOP button and a fresh mount *)

Section JointControlButtons.
Import JointControl.

Lemma moving_false (c : Component) :
  moving c = false <-> exists m, angle c = Some m /\ targetAngle c == m.
Proof.
  unfold moving. destruct (angle c) as [m |]; split.
  - intros H%negb_false_iff%Qeq_bool_iff. by exists m.
  - intros (m' & [= <-] & H). by apply negb_false_iff, Qeq_bool_iff.
  - done.
  - by intros (m' & [=] & _).
Qed.

(** X4: a click on STOP sends [stop_joint] exactly when the commanded
    angle differs from the measured one (or no angle has been measured).
    So after an acknowledged stop, which commands the angle 0, a joint
    whose measured angle is not 0 still counts as moving and the next
    click sends [stop_joint] again. *)
Theorem stop_button_follows_moving (s : State) :
  (forall m, angle (comp s) = Some m -> targetAngle (comp s) == m ->
     step s ClickStop = s) /\
  (forall m, angle (comp s) = Some m -> ~ targetAngle (comp s) == m ->
     step s ClickStop = stop s) /\
  (angle (comp s) = None -> step s ClickStop = stop s) /\
  (forall k w m, inflight s !! k = Some PStop ->
     angle (comp s) = Some m -> ~ m == 0 ->
     step (step s (Settle k (Resolve w))) ClickStop
       = stop (step s (Settle k (Resolve w)))).
Proof.
  split; [| split; [| split]].
  - intros m Hm Heq. simpl.
    assert (H : moving (comp s) = false) by (apply moving_false; eauto).
    by rewrite H.
  - intros m Hm Hne. simpl.
    destruct (moving (comp s)) eqn:H; [done |].
    apply moving_false in H as (m' & Hm' & Heq). congruence.
  - intros Hnone. simpl. unfold moving. by rewrite Hnone.
  - intros k w m Hk Hm Hne.
    cbn [step]. rewrite Hk. simpl. unfold moving. simpl. rewrite Hm.
    destruct (Qeq_bool 0 m) eqn:H; [| done].
    apply Qeq_bool_iff in H. exfalso. apply Hne. by symmetry.
Qed.

(** The elbow is mounted while it measures 45 degrees: STOP is enabled,
    and still is after the stop has been acknowledged. *)
Lemma stop_button_follows_moving_witness :
  let s := step (mount_default 2 "elbow" (Some 45)) ClickStop in
  trace (step (step s (Settle 0 (Resolve VUndefined))) ClickStop)
    = [ConsoleLog (MsgStopping 2); Invoke (stop_joint 2);
       ConsoleLog (MsgStopped 2);
       ConsoleLog (MsgStopping 2); Invoke (stop_joint 2)].
Proof.
  intros s.
  rewrite (proj2 (proj2 (proj2 (stop_button_follows_moving s)))
             0%nat VUndefined 45 eq_refl eq_refl);
    [reflexivity |].
  intros H. discriminate H.
Defined.

(** X5: right after creation the angle input holds the measured angle and
    the speed input holds 0.  If those lie inside the bounds, a submit
    commands the joint to the angle it already measures, at speed 0; if no
    angle has been measured, the submit does nothing. *)
Theorem fresh_mount_submit (i : nat) (n : string) (mn mx smn smx : Q) :
  (forall a, mn <= a -> a <= mx -> smn <= 0 -> 0 <= smx ->
     trace (step (mount i n (Some a) mn mx smn smx) ClickSubmit)
       = [ConsoleLog (MsgMoving i a); Invoke (move_joint i a 0)]) /\
  step (mount i n None mn mx smn smx) ClickSubmit = mount i n None mn mx smn smx.
Proof.
  split; [| done].
  intros a Hlo Hhi Hslo Hshi.
  rewrite (submit_paths _ ClickSubmit (or_introl eq_refl)).
  assert (Ha : angleInputValid (comp (mount i n (Some a) mn mx smn smx)) = true).
  { apply angleInputValid_true. exists a. by repeat split. }
  assert (Hv : speedInputValid (comp (mount i n (Some a) mn mx smn smx)) = true).
  { apply speedInputValid_true. exists 0. by repeat split. }
  by rewrite Ha, Hv.
Qed.

Lemma fresh_mount_submit_witness :
  trace (step (mount_default 2 "elbow" (Some 45)) ClickSubmit)
    = [ConsoleLog (MsgMoving 2 45); Invoke (move_joint 2 45 0)].
Proof.
  apply (proj1 (fresh_mount_submit 2 "elbow" (-180) 180 0 180) 45); lra.
Defined.

End JointControlButtons.

(** ** App.svelte: the array, the flags and the commands *)

Section AppInvariants.
Import App.

Lemma get_angles_then_length (v : Value) (a : list elem) :
  (length a <= length (get_angles_then v a))%nat.
Proof.
  destruct v as [| b | q | x | received];
    try (by rewrite get_angles_then_not_array).
  rewrite get_angles_then_array, length_app, length_drop. lia.
Qed.

Lemma step_angles_length (s : State) (ev : Event) :
  (length (angles s) <= length (angles (step s ev)))%nat.
Proof.
  destruct ev as [x | x | | | | k r]; simpl.
  - by destruct (connected s).
  - by destruct (connected s).
  - by destruct (connected s).
  - by destruct (connected s && initialized s).
  - by destruct (intervals s).
  - destruct (pending s !! k) as [p |]; [| done].
    destruct p, r as [v | e]; simpl; try done.
    + by destruct (truthy v).
    + apply get_angles_then_length.
Qed.

Lemma run_angles_length (evs : list Event) (s : State) :
  (length (angles s) <= length (angles (run evs s)))%nat.
Proof.
  revert s. induction evs as [| ev evs IH]; intros s; [done |].
  simpl. etrans; [apply step_angles_length | apply IH].
Qed.

(** X6: [angles] never gets shorter, whatever the backend returns; so in
    every state the component can reach it has at least six entries and
    [angles[joint.id]] is an entry of the array for each of the six
    joints, never an index past its end. *)
Theorem joints_always_have_entry (evs : list Event) (s : State) :
  (length (angles s) <= length (angles (run evs s)))%nat /\
  (6 <= length (angles (run evs initial)))%nat /\
  Forall (fun joint => is_Some (angles (run evs initial) !! joint.2)) JOINTS.
Proof.
  pose proof (run_angles_length evs initial) as H6. simpl in H6.
  split; [apply run_angles_length |]. split; [done |].
  repeat constructor; apply lookup_lt_is_Some; simpl; lia.
Qed.

Lemma step_timer_iff (s : State) (ev : Event) :
  (initialized s = true <-> intervals s <> 0%nat) ->
  (initialized (step s ev) = true <-> intervals (step s ev) <> 0%nat).
Proof.
  intros Hs. destruct ev as [x | x | | | | k r]; simpl.
  - by destruct (connected s).
  - by destruct (connected s).
  - by destruct (connected s).
  - by destruct (connected s && initialized s).
  - destruct (intervals s) as [| m] eqn:Hm; simpl; by rewrite Hm.
  - destruct (pending s !! k) as [p |]; [| done].
    destruct p, r as [v | e]; simpl; try done.
    by destruct (truthy v).
Qed.

(** X7: in every state [App.svelte] can reach, [initialized] is set
    exactly when a polling timer exists: the joint controls are never
    shown without polling, and polling never runs behind the
    "Initializing..." text. *)
Theorem initialized_iff_polling (evs : list Event) :
  initialized (run evs initial) = true <-> intervals (run evs initial) <> 0%nat.
Proof.
  assert (H : forall s, (initialized s = true <-> intervals s <> 0%nat) ->
                        (initialized (run evs s) = true <->
                         intervals (run evs s) <> 0%nat)).
  { induction evs as [| ev evs IH]; intros s Hs; [done |].
    simpl. apply IH. by apply step_timer_iff. }
  apply H. by vm_compute.
Qed.

Lemma initialized_iff_polling_witness :
  initialized ready = true /\ intervals ready <> 0%nat.
Proof.
  unfold ready.
  assert (H : intervals
                (run [Settle 0 (Resolve (VBool false)); ClickConnect;
                      Settle 0 (Resolve VUndefined); Settle 0 (Resolve VUndefined)]
                   initial) <> 0%nat) by (vm_compute; discriminate).
  split; [| exact H].
  apply (proj2 (initialized_iff_polling
                  [Settle 0 (Resolve (VBool false)); ClickConnect;
                   Settle 0 (Resolve VUndefined); Settle 0 (Resolve VUndefined)]) H).
Defined.

Lemma step_monotone (s : State) (ev : Event) :
  (intervals s <= intervals (step s ev))%nat /\
  (initialized s = true -> initialized (step s ev) = true).
Proof.
  destruct ev as [x | x | | | | k r]; simpl.
  - by destruct (connected s).
  - by destruct (connected s).
  - by destruct (connected s).
  - by destruct (connected s && initialized s).
  - destruct (intervals s) as [| m] eqn:Hm; simpl; rewrite Hm; by split.
  - destruct (pending s !! k) as [p |]; [| done].
    destruct p, r as [v | e]; simpl; try done; try (split; [lia | done]).
    by destruct (truthy v).
Qed.

(** X8: nothing in [App.svelte] clears a timer or resets [initialized]:
    from any state on, the number of polling timers never goes down and
    [initialized], once set, stays set, also through a disconnect. *)
Theorem polling_never_stops (s : State) (evs : list Event) :
  (intervals s <= intervals (run evs s))%nat /\
  (initialized s = true -> initialized (run evs s) = true).
Proof.
  revert s. induction evs as [| ev evs IH]; intros s; [done |].
  simpl. destruct (step_monotone s ev) as [Hn Hi].
  destruct (IH (step s ev)) as [Hn' Hi']. split; [lia | auto].
Qed.

(** The second [init] is rejected and the disconnect that follows is
    acknowledged: [connected] is cleared, the timer of the first [init]
    and [initialized] are still there. *)
Lemma polling_never_stops_witness :
  let evs := [Settle 0 (Reject "already initialized");
              Settle 0 (Resolve VUndefined)] in
  connected (run evs second_init_outstanding) = false /\
  (1 <= intervals (run evs second_init_outstanding))%nat /\
  initialized (run evs second_init_outstanding) = true.
Proof.
  intros evs.
  destruct (polling_never_stops second_init_outstanding evs) as [Hn Hi].
  split; [vm_compute; reflexivity |].
  split; [| apply Hi; vm_compute; reflexivity].
  vm_compute in Hn. vm_compute. exact Hn.
Defined.

End AppInvariants.

Section AppCommands.
Import App.

Ltac sent_nothing :=
  exists []; split; [by rewrite app_nil_r | simpl; intuition].
Ltac sent_some :=
  eexists; split;
    [first [reflexivity | by rewrite <- app_assoc] | simpl; intuition congruence].

(** What one event can add to the trace, command by command. *)
Lemma step_commands (s : State) (ev : Event) :
  exists es, trace (step s ev) = trace s ++ es /\
    (forall m, In (Invoke (calibrate m)) es ->
       ev = ClickCalibrate /\ connected s = true /\ initialized s = true /\
       m = 63%Z) /\
    (forall p b, In (Invoke (connect p b)) es ->
       ev = ClickConnect /\ connected s = false /\
       p = portName s /\ b = baudRate s) /\
    (In (Invoke disconnect) es ->
       exists k e, ev = Settle k (Reject e) /\ pending s !! k = Some PInit) /\
    ~ In (Invoke is_connected) es.
Proof.
  destruct ev as [x | x | | | | k r]; simpl.
  - destruct (connected s); sent_nothing.
  - destruct (connected s); sent_nothing.
  - destruct (connected s) eqn:Hc; [sent_nothing | sent_some].
  - destruct (connected s) eqn:Hc, (initialized s) eqn:Hi; simpl;
      first [sent_nothing | sent_some].
  - destruct (intervals s) eqn:Hn; [sent_nothing | sent_some].
  - destruct (pending s !! k) as [p |] eqn:Hk; [| sent_nothing].
    destruct p, r as [v | e]; simpl;
      try (destruct (truthy v); simpl);
      try first [sent_nothing | sent_some].
    eexists; split; [reflexivity |]. simpl.
    repeat split; try (intuition congruence).
    intros _. by exists k, e.
Qed.

(** X9: each command [App.svelte] sends has one cause, in any state.
    [calibrate] goes out only on a click on Calibrate All while connected
    and initialized, and always with the mask [0b111111]; [connect] only
    on a click on Connect while not connected, with the port name and the
    baud rate as the inputs hold them ([null] included); [disconnect] only
    when an [init] is rejected; and [is_connected] is never asked again
    after start-up. *)
Theorem command_causes (s : State) (ev : Event) :
  (forall m, In (Invoke (calibrate m)) (effects_of s ev) ->
     ev = ClickCalibrate /\ connected s = true /\ initialized s = true /\
     m = 63%Z) /\
  (forall p b, In (Invoke (connect p b)) (effects_of s ev) ->
     ev = ClickConnect /\ connected s = false /\
     p = portName s /\ b = baudRate s) /\
  (In (Invoke disconnect) (effects_of s ev) ->
     exists k e, ev = Settle k (Reject e) /\ pending s !! k = Some PInit) /\
  ~ In (Invoke is_connected) (effects_of s ev).
Proof.
  destruct (step_commands s ev) as (es & Hes & H).
  assert (Heff : effects_of s ev = es).
  { unfold effects_of. by rewrite Hes, drop_app_length. }
  by rewrite Heff.
Qed.

(** The user clears the baud rate field and clicks Connect. *)
Lemma command_causes_witness :
  In (Invoke (connect "/dev/ttyCobot0" None))
     (effects_of (step initial (InputBaudRate None)) ClickConnect) /\
  baudRate (step initial (InputBaudRate None)) = None.
Proof.
  assert (H : In (Invoke (connect "/dev/ttyCobot0" None))
                (effects_of (step initial (InputBaudRate None)) ClickConnect))
    by (vm_compute; left; reflexivity).
  split; [exact H |].
  destruct (proj1 (proj2 (command_causes (step initial (InputBaudRate None))
                            ClickConnect)) _ _ H) as (_ & _ & _ & Hb).
  by symmetry.
Defined.

(** X10: of two successive fetches, the later one decides every joint it
    covers: when it is at least as long as the earlier one, nothing of the
    earlier one shows, and repeating a fetch changes nothing. *)
Theorem later_fetch_wins (r1 r2 a : list elem) :
  (length r1 <= length r2)%nat ->
  get_angles_then (VArray r2) (get_angles_then (VArray r1) a)
    = get_angles_then (VArray r2) a /\
  get_angles_then (VArray r2) (get_angles_then (VArray r2) a)
    = get_angles_then (VArray r2) a.
Proof.
  intros Hlen. rewrite !get_angles_then_array. split.
  - rewrite drop_app, drop_drop. rewrite (drop_ge r1) by lia. simpl.
    do 2 f_equal. lia.
  - rewrite drop_app, drop_drop. rewrite (drop_ge r2) by lia. simpl.
    do 2 f_equal. lia.
Qed.

Lemma later_fetch_wins_witness :
  get_angles_then (VArray [Some 7; Some 8; Some 9])
    (get_angles_then (VArray [Some 1; Some 2]) initial_angles)
  = get_angles_then (VArray [Some 7; Some 8; Some 9]) initial_angles.
Proof.
  apply (later_fetch_wins [Some 1; Some 2] [Some 7; Some 8; Some 9] initial_angles).
  simpl. lia.
Defined.

(** X11: a fetched array reaches the joints by index: after it is applied,
    the JointControl of joint [j] is handed entry [j] of the fetched array
    if the array has one ([null] included), and otherwise the angle it was
    handed before. *)
Theorem fetched_angle_reaches_joint
    (s : State) (k : nat) (received : list elem) (j : nat) :
  pending s !! k = Some PGetAngles ->
  angle_prop (angles (step s (Settle k (Resolve (VArray received))))) j
    = if decide (j < length received)%nat
      then angle_prop received j
      else angle_prop (angles s) j.
Proof.
  intros Hk. simpl. rewrite Hk. simpl. rewrite get_angles_then_array.
  unfold angle_prop. case_decide as Hj.
  - by rewrite lookup_app_l.
  - rewrite lookup_app_r by lia. rewrite lookup_drop.
    by replace (length received + (j - length received))%nat with j by lia.
Qed.

(** The backend reports no value for the shoulder: its control is handed
    [null]; the forearm roll, beyond the three fetched entries, keeps its
    angle. *)
Lemma fetched_angle_reaches_joint_witness :
  angle_prop
    (angles (step (step ready Tick)
               (Settle 0 (Resolve (VArray [Some 1; None; Some 3]))))) 1 = None /\
  angle_prop
    (angles (step (step ready Tick)
               (Settle 0 (Resolve (VArray [Some 1; None; Some 3]))))) 3 = Some 0.
Proof.
  split.
  - rewrite (fetched_angle_reaches_joint (step ready Tick) 0
               [Some 1; None; Some 3] 1 ltac:(vm_compute; reflexivity)).
    reflexivity.
  - rewrite (fetched_angle_reaches_joint (step ready Tick) 0
               [Some 1; None; Some 3] 3 ltac:(vm_compute; reflexivity)).
    vm_compute. reflexivity.
Defined.

End AppCommands.

(** ** The retrying draft: one attempt at a time, without end *)

Section RetryFacts.
Import AppRetry.

Lemma filter_delete_length {A} (f : A -> bool) (l : list A) (k : nat) (p : A) :
  l !! k = Some p ->
  length (List.filter f l)
    = ((if f p then 1 else 0) + length (List.filter f (delete k l)))%nat.
Proof.
  revert k. induction l as [| x l IH]; intros k Hk; [done |].
  destruct k as [| k]; simpl in *.
  - injection Hk as ->. by destruct (f p).
  - destruct (f x); simpl; rewrite (IH k Hk); destruct (f p); lia.
Qed.

Lemma attempt_inv_step (s : State) (ev : Event) :
  attempt_inv s -> attempt_inv (step s ev).
Proof.
  unfold attempt_inv, attempts_running. intros Hs.
  destruct ev as [| | k r]; simpl.
  - destruct (intervals s) eqn:Hn; simpl;
      rewrite ?Hn, ?List.filter_app, ?length_app; simpl; intuition lia.
  - destruct (timeouts s) as [| n] eqn:Hn; simpl;
      rewrite ?Hn, ?List.filter_app, ?length_app; simpl; intuition lia.
  - destruct (pending s !! k) as [p |] eqn:Hk; [| done].
    pose proof (filter_delete_length is_attempt _ _ _ Hk) as Hc.
    destruct p, r as [v | e]; simpl in *;
      rewrite ?List.filter_app, ?length_app; simpl; intuition lia.
Qed.

Lemma attempt_inv_run (evs : list Event) (s : State) :
  attempt_inv s -> attempt_inv (run evs s).
Proof.
  revert s. induction evs as [| ev evs IH]; intros s Hs; [done |].
  simpl. apply IH. by apply attempt_inv_step.
Qed.

(** X12: the retrying draft runs one attempt at [init()] at a time and
    stops attempting once one succeeds.  In every state it can reach,
    either it is not initialized, has no polling timer, and exactly one
    attempt is under way (a connect or init request outstanding, or the
    retry timeout pending); or it is initialized, has exactly one polling
    timer, and nothing of an attempt is left. *)
Theorem one_attempt_at_a_time (evs : list Event) :
  (initialized (run evs initial) = false /\
   intervals (run evs initial) = 0%nat /\
   attempts_running (run evs initial) = 1%nat) \/
  (initialized (run evs initial) = true /\
   intervals (run evs initial) = 1%nat /\
   attempts_running (run evs initial) = 0%nat).
Proof.
  apply (attempt_inv_run evs initial). left. by vm_compute.
Qed.

Lemma failed_attempt_cycle (s : State) (a : Response * string) :
  pending s = [PConnect] -> timeouts s = 0%nat ->
  pending (run (failed_attempt a) s) = [PConnect] /\
  timeouts (run (failed_attempt a) s) = 0%nat /\
  initialized (run (failed_attempt a) s) = initialized s /\
  intervals (run (failed_attempt a) s) = intervals s /\
  connects_invoked (trace (run (failed_attempt a) s))
    = S (connects_invoked (trace s)).
Proof.
  intros Hp Ht. destruct s as [an ini pe iv tm tr]. simpl in *. subst.
  destruct a as [[v | e'] e]; simpl; repeat split;
    unfold connects_invoked; rewrite !List.filter_app, !length_app; simpl; lia.
Qed.

(** X13: the retry has no bound.  Whatever way each connect settles,
    however many times [init] is rejected, after the timeout the component
    is where it started: one connect outstanding, not initialized, no
    polling; and it has invoked [connect] once more per failed attempt. *)
Theorem retry_without_bound (attempts : list (Response * string)) :
  pending (run (concat (map failed_attempt attempts)) initial) = [PConnect] /\
  timeouts (run (concat (map failed_attempt attempts)) initial) = 0%nat /\
  initialized (run (concat (map failed_attempt attempts)) initial) = false /\
  intervals (run (concat (map failed_attempt attempts)) initial) = 0%nat /\
  connects_invoked (trace (run (concat (map failed_attempt attempts)) initial))
    = S (length attempts).
Proof.
  assert (H : forall s, pending s = [PConnect] -> timeouts s = 0%nat ->
    pending (run (concat (map failed_attempt attempts)) s) = [PConnect] /\
    timeouts (run (concat (map failed_attempt attempts)) s) = 0%nat /\
    initialized (run (concat (map failed_attempt attempts)) s) = initialized s /\
    intervals (run (concat (map failed_attempt attempts)) s) = intervals s /\
    connects_invoked (trace (run (concat (map failed_attempt attempts)) s))
      = (connects_invoked (trace s) + length attempts)%nat).
  { induction attempts as [| a attempts IH]; intros s Hp Ht.
    - simpl. repeat split; try done; lia.
    - change (concat (map failed_attempt (a :: attempts)))
        with (failed_attempt a ++ concat (map failed_attempt attempts)).
      unfold run in *. rewrite foldl_app.
      destruct (failed_attempt_cycle s a Hp Ht) as (Hp' & Ht' & Hi & Hn & Hc).
      unfold run in *.
      destruct (IH _ Hp' Ht') as (-> & -> & -> & -> & ->).
      rewrite Hi, Hn, Hc. simpl. repeat split; lia. }
  destruct (H initial eq_refl eq_refl) as (-> & -> & -> & -> & ->).
  by repeat split.
Qed.

End RetryFacts.
